(** * assetfinder: the normaliser, the sink and the orchestrator of [main.go]

    A shallow embedding of [assetfinder/main.go].  Go strings are byte
    sequences, modelled by [string] (a list of 8-bit [ascii]); a run-time
    panic (index out of range) is the [None] of the option monad; the
    [printed] map of the sink is a [gmap string bool]; the goroutines that
    feed the unbuffered channel [out] are a step function driven by a
    schedule. *)

From Stdlib Require Import Ascii String NArith.
From stdpp Require Import gmap strings list.


(** ** Go strings *)

(** [len(d)]. *)
Definition len (d : string) : nat := String.length d.

(** [d[i]]: the byte at index [i]; [None] is the "index out of range" panic. *)
Definition index (d : string) (i : nat) : option ascii := String.get i d.

(** [d[i:]]: the suffix from index [i]; Go panics when [i > len(d)]. *)
Fixpoint sliceFrom (d : string) (i : nat) {struct i} : option string :=
  match i, d with
  | 0, _ => Some d
  | S _, EmptyString => None
  | S j, String _ r => sliceFrom r j
  end.

(** The numeric value of a byte. *)
Definition code (c : ascii) : N := N_of_ascii c.

(** [c >= utf8.RuneSelf] fails: the byte is a one-byte (ASCII) rune. *)
Definition isASCIIByte (c : ascii) : bool := (code c <? 128)%N.

(** ['A' <= c && c <= 'Z']. *)
Definition isUpperByte (c : ascii) : bool := (65 <=? code c)%N && (code c <=? 90)%N.

(** [c += 'a' - 'A'] on an upper-case ASCII letter, any other byte is kept. *)
Definition lowerByte (c : ascii) : ascii :=
  if isUpperByte c then ascii_of_N (code c + 32) else c.

Fixpoint isASCII (s : string) : bool :=
  match s with
  | EmptyString => true
  | String c r => isASCIIByte c && isASCII r
  end.

Fixpoint hasUpper (s : string) : bool :=
  match s with
  | EmptyString => false
  | String c r => isUpperByte c || hasUpper r
  end.

Fixpoint lowerBytes (s : string) : string :=
  match s with
  | EmptyString => EmptyString
  | String c r => String (lowerByte c) (lowerBytes r)
  end.

(** A string that [strings.ToLower] sends to itself whatever the Unicode
    tables say: ASCII only, no upper-case letter. *)
Definition lowered (s : string) : bool := isASCII s && negb (hasUpper s).

(** What the program uses of Go's standard library without defining it:
    [strings.Map(unicode.ToLower, s)], the path [strings.ToLower] takes on a
    string with a byte above 127.  It decodes UTF-8 and maps every rune through
    the Unicode case tables, so it may change the length of the string;
    nothing is assumed about it. *)
Class GoRuntime := { mapUnicodeLower : string → string }.

(** On text whose runes above 127 have no case the Unicode path changes the
    ASCII letters only. *)
Definition caselessRuntime : GoRuntime := {| mapUnicodeLower := lowerBytes |}.

Section Normalizer.
Context {rt : GoRuntime}.

(** [strings.ToLower]: ASCII-only strings are lowered byte by byte (and
    returned as they are when they have no upper-case letter), any other
    string goes through the Unicode tables. *)
Definition ToLower (s : string) : string :=
  if isASCII s then (if hasUpper s then lowerBytes s else s)
  else mapUnicodeLower s.

(** ['*'] or ['%']. *)
Definition isMarker (c : ascii) : bool := Ascii.eqb c "*" || Ascii.eqb c "%".

(** [if d[0] == '*' || d[0] == '%' { d = d[1:] }] (main.go, 201-203). *)
Definition stripMarker (d : string) : option string :=
  c ← index d 0;
  if isMarker c then sliceFrom d 1 else Some d.

(** [if d[0] == '.' { d = d[1:] }] (main.go, 205-207). *)
Definition stripDot (d : string) : option string :=
  c ← index d 0;
  if Ascii.eqb c "." then sliceFrom d 1 else Some d.

(** [cleanDomain] (main.go, 193-211). *)
Definition cleanDomain (d : string) : option string :=
  let d := ToLower d in
  if (len d <? 2)%nat then Some d
  else d ← stripMarker d; stripDot d.

(** The normaliser as section 4.3 of the specification words it: lower-case,
    return strings of fewer than two characters, drop a first character that
    is [*] or [%], then drop a first character that is a dot. *)
Definition dropFirstIf (p : ascii → bool) (s : string) : string :=
  match s with
  | String c r => if p c then r else s
  | EmptyString => s
  end.

Definition normalize (raw : string) : string :=
  let s := ToLower raw in
  if (len s <? 2)%nat then s
  else dropFirstIf (λ c, Ascii.eqb c ".") (dropFirstIf isMarker s).

(** A name that [cleanDomain] would not shorten: fewer than two bytes, or a
    first byte that is none of [*], [%] and the dot. *)
Definition unmarked (s : string) : bool :=
  (len s <? 2)%nat ||
  match index s 0 with
  | Some c => negb (isMarker c || Ascii.eqb c ".")
  | None => true
  end.

End Normalizer.

(** ** The providers of main.go that the claims are about *)

(** A Go [error] value, by its message; [nil] is [None]. *)
Definition error : Type := string.

(** [type fetchFn func(string) ([]string, error)]. *)
Definition fetchFn : Type := string → list string * option error.

(** What [http.Get] hands back on success: the bytes the body delivers and
    how it ends ([None] for a clean end of stream, else the read error). *)
Record response := { Body : string; BodyErr : option error }.

(** One call of [dec.Decode(&wrapper)]: the [name_value] of the decoded
    object, or the decoder's error. *)
Inductive decoded :=
  | Decoded (name : string)
  | DecodeError (e : error).

(** The outside world: the answer of [http.Get] for each URL, and what the
    successive [Decode] calls of an [encoding/json] decoder give over the
    bytes of a body before the stream ends (every later call fails with the
    end of the stream). *)
Class Network := {
  http_Get : string → response + error;
  jsonStream : string → list decoded
}.

(** [bufio.MaxScanTokenSize]. *)
Definition MaxScanTokenSize : nat := 64 * 1024.

(** [bufio.ErrTooLong]. *)
Definition ErrTooLong : error := "bufio.Scanner: token too long".

Definition newline : ascii := ascii_of_N 10.
Definition carriageReturn : ascii := ascii_of_N 13.

(** [dropCR] of bufio, on a line held last byte first. *)
Definition dropCR (rev_line : list ascii) : list ascii :=
  match rev_line with
  | c :: r => if Ascii.eqb c carriageReturn then r else rev_line
  | [] => []
  end.

(** The token [bufio.ScanLines] returns for a line held last byte first. *)
Definition lineToken (rev_line : list ascii) : string :=
  string_of_list_ascii (rev (dropCR rev_line)).

(** The tokens the successive [sc.Scan()] calls give over [data] with the
    default split function [bufio.ScanLines], and the final [sc.Err()].
    [cur] holds the bytes of the line being read, last byte first.  A line is
    cut at its newline, a final line without one is a token unless it is
    empty, and a line whose newline is not among its first
    [MaxScanTokenSize] bytes stops the scanner with [ErrTooLong]. *)
Fixpoint scanLines (data : string) (cur : list ascii) : list string * option error :=
  match data with
  | EmptyString =>
      match cur with
      | [] => ([], None)
      | _ => if MaxScanTokenSize <=? length cur then ([], Some ErrTooLong)
             else ([lineToken cur], None)
      end
  | String c rest =>
      if Ascii.eqb c newline then
        if MaxScanTokenSize <=? length cur then ([], Some ErrTooLong)
        else let '(tokens, err) := scanLines rest [] in (lineToken cur :: tokens, err)
      else scanLines rest (c :: cur)
  end.

(** [strings.Index(s, sep)] for a one-byte separator, as the two pieces
    [s[:m]] and [s[m+1:]]; [None] when the separator does not occur. *)
Fixpoint cut (sep : ascii) (s : string) : option (string * string) :=
  match s with
  | EmptyString => None
  | String c r =>
      if Ascii.eqb c sep then Some (EmptyString, r)
      else '(a, b) ← cut sep r; Some (String c a, b)
  end.

(** [strings.SplitN(s, sep, n)] for a one-byte separator and [n >= 0]. *)
Fixpoint SplitN (s : string) (sep : ascii) (n : nat) : list string :=
  match n with
  | 0 => []
  | 1 => [s]
  | S m => match cut sep s with
           | Some (a, b) => a :: SplitN b sep m
           | None => [s]
           end
  end.

(** The fields of a line between all of its commas, as the specification
    counts them ([strings.Split]). *)
Fixpoint fields (line : string) : list string :=
  match line with
  | EmptyString => [EmptyString]
  | String c r =>
      if Ascii.eqb c "," then EmptyString :: fields r
      else match fields r with
           | f :: fs => String c f :: fs
           | [] => [String c EmptyString]
           end
  end.

(** The body of the scanning loop of [fetchHackerTarget] (main.go, 113-118)
    over the tokens of the scanner: [parts[0]] is read only when [parts] has
    two elements. *)
Fixpoint hackerTargetLoop (tokens : list string) (out : list string) : list string :=
  match tokens with
  | [] => out
  | text :: tokens' =>
      match SplitN text "," 2 with
      | [p0; _] => hackerTargetLoop tokens' (out ++ [p0])
      | _ => hackerTargetLoop tokens' out
      end
  end.

(** *** The vocabulary of the statements on the decoder of hackertarget *)

(** The bytes of [l] on top of [cur], last byte first, as [scanLines] holds
    the line it is reading. *)
Fixpoint pushBytes (l : string) (cur : list ascii) : list ascii :=
  match l with
  | EmptyString => cur
  | String c r => pushBytes r (c :: cur)
  end.

(** The text of a line as the scanner hands it over: without a carriage
    return at its end. *)
Definition lineText (l : string) : string := lineToken (pushBytes l []).

(** No byte of [l] is a newline. *)
Fixpoint noNewline (l : string) : bool :=
  match l with
  | EmptyString => true
  | String c r => negb (Ascii.eqb c newline) && noNewline r
  end.

(** A line the scanner can hold: no newline inside, shorter than the
    largest token. *)
Definition scannable (l : string) : Prop :=
  noNewline l = true ∧ len l < MaxScanTokenSize.

(** A response body: lines, each ended by a newline, then what follows the
    last newline. *)
Fixpoint bodyOf (lines : list string) (last : string) : string :=
  match lines with
  | [] => last
  | l :: lines' => l +:+ String newline (bodyOf lines' last)
  end.

(** Its lines: what follows the last newline counts when it is not empty. *)
Definition linesOf (lines : list string) (last : string) : list string :=
  lines ++ match last with EmptyString => [] | _ => [last] end.

(** The name a line gives: its first field when it has two fields or more. *)
Definition firstField (line : string) : option string :=
  match fields line with
  | f :: _ :: _ => Some f
  | _ => None
  end.

Section Providers.
Context {net : Network}.

(** [httpGet] (main.go, 177-191). *)
Definition httpGet (url : string) : string * option error :=
  match http_Get url with
  | inr err => (EmptyString, Some err)
  | inl res =>
      match BodyErr res with
      | Some err => (EmptyString, Some err)
      | None => (Body res, None)
      end
  end.

(** [fetchHackerTarget] (main.go, 101-122). *)
Definition fetchHackerTarget (domain : string) : list string * option error :=
  let out := [] in
  let '(raw, err) := httpGet ("https://api.hackertarget.com/hostsearch/?q=" +:+ domain) in
  match err with
  | Some e => (out, Some e)
  | None =>
      let '(tokens, scErr) := scanLines raw [] in
      (hackerTargetLoop tokens out, scErr)
  end.

(** The decoding loop of [fetchCrtSh] (main.go, 162-173) over the results
    of the successive [Decode] calls; when they run out the next call fails
    with the end of the stream, and the loop stops as on any other error. *)
Fixpoint crtShLoop (stream : list decoded) (output : list string) : list string :=
  match stream with
  | [] => output
  | DecodeError _ :: _ => output
  | Decoded name :: stream' => crtShLoop stream' (output ++ [name])
  end.

(** [fetchCrtSh] (main.go, 149-175). *)
Definition fetchCrtSh (domain : string) : list string * option error :=
  match http_Get ("https://crt.sh/?q=%25." +:+ domain +:+ "&output=json") with
  | inr err => ([], Some err)
  | inl resp => (crtShLoop (jsonStream (Body resp)) [], None)
  end.

End Providers.

(** ** The sink and the orchestrator of [main] *)

(** One goroutine of the loop over [sources] (main.go, 41-54). *)
Inductive worker :=
  | Ready (fn : fetchFn)          (** started, [fn(domain)] has not returned yet *)
  | Sending (names : list string) (** in [for _, n := range names { out <- n }] *)
  | Finished.                     (** returned: the deferred [wg.Done()] has run *)

(** The state of a run of [main]: the goroutines, in the order of [sources];
    the values received from the channel [out] so far; the map [printed];
    the lines printed on standard output; what was written to standard
    error. *)
Record state := {
  workers : list worker;
  merged : list string;
  printed : gmap string bool;
  stdout : list string;
  stderr : list string
}.

(** What a step gives: the next state, a panic of the program, or nothing
    when the chosen goroutine has no step to take. *)
Inductive outcome :=
  | Next (st : state)
  | Panicked
  | NotEnabled.

(** [fmt.Fprintf(os.Stderr, "err: %s\n", err)]: what it writes. *)
Definition errLine (e : error) : string :=
  "err: " +:+ e +:+ String (ascii_of_N 10) EmptyString.

Definition setWorker (i : nat) (w : worker) (st : state) : state :=
  {| workers := <[i := w]> (workers st); merged := merged st;
     printed := printed st; stdout := stdout st; stderr := stderr st |}.

(** The state in which the sink starts: nothing received, nothing printed. *)
Definition initial (ws : list worker) : state :=
  {| workers := ws; merged := []; printed := ∅; stdout := []; stderr := [] |}.

Definition allFinished (st : state) : bool :=
  forallb (λ w, match w with Finished => true | _ => false end) (workers st).

Section Main.
Context {rt : GoRuntime}.

(** The body of [for n := range out] (main.go, 67-72) on a received value:
    [None] is a panic of [cleanDomain]. *)
Definition sinkBody (st : state) (n : string) : option state :=
  n' ← cleanDomain n;
  match printed st !! n' with
  | Some _ =>
      Some {| workers := workers st; merged := merged st ++ [n];
              printed := printed st; stdout := stdout st; stderr := stderr st |}
  | None =>
      Some {| workers := workers st; merged := merged st ++ [n];
              printed := <[n' := true]> (printed st);
              stdout := stdout st ++ [n']; stderr := stderr st |}
  end.

(** The sink alone, over the sequence of values the channel delivers before
    it is closed. *)
Fixpoint sinkLoop (st : state) (ch : list string) : option state :=
  match ch with
  | [] => Some st
  | n :: ch' => st' ← sinkBody st n; sinkLoop st' ch'
  end.

(** One step of goroutine [i].  A send on the unbuffered channel [out] and
    the receive of the sink are one step, together with the body of the
    sink's loop, which touches nothing the goroutines share. *)
Definition step (domain : string) (i : nat) (st : state) : outcome :=
  match workers st !! i with
  | None | Some Finished => NotEnabled
  | Some (Ready fn) =>
      let '(names, err) := fn domain in
      match err with
      | Some e =>
          Next {| workers := <[i := Finished]> (workers st); merged := merged st;
                  printed := printed st; stdout := stdout st;
                  stderr := stderr st ++ [errLine e] |}
      | None => Next (setWorker i (Sending names) st)
      end
  | Some (Sending []) => Next (setWorker i Finished st)
  | Some (Sending (n :: names)) =>
      match sinkBody st n with
      | Some st' => Next (setWorker i (Sending names) st')
      | None => Panicked
      end
  end.

(** A run under a schedule: the goroutine that moves at each step. *)
Fixpoint run (domain : string) (sched : list nat) (st : state) : outcome :=
  match sched with
  | [] => Next st
  | i :: sched' =>
      match step domain i st with
      | Next st' => run domain sched' st'
      | o => o
      end
  end.

(** [main] up to the start of the goroutines (main.go, 17-64): without a
    domain it prints a diagnostic and returns. *)
Definition start (sources : list fetchFn) (domain : string) : state :=
  if bool_decide (domain = EmptyString) then
    {| workers := []; merged := []; printed := ∅;
       stdout := ["no domain specified"%string]; stderr := [] |}
  else initial (Ready <$> sources).

(** A complete run of [main]: every goroutine has returned, so the channel
    is closed and the loop of the sink has ended. *)
Definition completes (sources : list fetchFn) (domain : string)
    (sched : list nat) (final : state) : Prop :=
  run domain sched (start sources domain) = Next final ∧ allFinished final = true.

(** The number of steps a goroutine takes when its fetch returns: the call,
    one send for each name and the return; the call alone on an error. *)
Definition workerSteps (domain : string) (fn : fetchFn) : nat :=
  match fn domain with
  | (names, None) => 2 + length names
  | (_, Some _) => 1
  end.

(** The names and the errors of a list of providers, in its order. *)
Definition succeeded (domain : string) (sources : list fetchFn) : list string :=
  sources ≫= (λ fn, match fn domain with (names, None) => names | _ => [] end).

Definition failures (domain : string) (sources : list fetchFn) : list error :=
  sources ≫= (λ fn, match fn domain with (_, Some e) => [e] | _ => [] end).

(** *** The quantities the invariants of a run are stated with *)

(** What a goroutine has still to send, and to report. *)
Definition pendingNames (domain : string) (w : worker) : list string :=
  match w with
  | Ready fn => match fn domain with (names, None) => names | _ => [] end
  | Sending names => names
  | Finished => []
  end.

Definition pendingErrors (domain : string) (w : worker) : list error :=
  match w with
  | Ready fn => match fn domain with (_, Some e) => [e] | _ => [] end
  | _ => []
  end.

(** The steps a goroutine has left. *)
Definition todo (domain : string) (w : worker) : nat :=
  match w with
  | Ready fn => workerSteps domain fn
  | Sending names => S (length names)
  | Finished => 0
  end.

Definition remaining (domain : string) (st : state) : nat :=
  sum_list_with (todo domain) (workers st).

(** The invariant of the loop [for n := range out]: the keys of [printed]
    are the lines printed so far, no line was printed twice, and the lines
    are the normal forms of the values received. *)
Definition sinkInv (st : state) : Prop :=
  dom (printed st) =@{gset string} list_to_set (stdout st) ∧
  NoDup (stdout st) ∧
  ∀ n, n ∈ stdout st ↔ n ∈ normalize <$> merged st.

(** The invariant of a run for the names [M] and the errors [E] the
    providers return: the sink's invariant; the values received and the
    values still to send are [M]; the errors written and the errors still to
    report are [E]. *)
Definition runInv (domain : string) (M : list string) (E : list error) (st : state) : Prop :=
  sinkInv st ∧
  merged st ++ (workers st ≫= pendingNames domain) ≡ₚ M ∧
  stderr st ++ (errLine <$> (workers st ≫= pendingErrors domain)) ≡ₚ errLine <$> E.

End Main.

(** ** Concrete runs *)

(** A network that answers every request with the same body. *)
Definition answering (body : string) (stream : list decoded) : Network :=
  {| http_Get := λ _, inl {| Body := body; BodyErr := None |};
     jsonStream := λ _, stream |}.

(** Three providers, the second of which fails. *)
Definition scenarioSources : list fetchFn :=
  [ (λ _, (["a.example.com"; "b.example.com"]%string, None));
    (λ _, ([], Some "Get: dial tcp: i/o timeout"%string));
    (λ _, (["c.example.com"; "d.example.com"]%string, None)) ].

(** Two schedules that bring the three goroutines to their end. *)
Definition interleaved : list nat := [2; 0; 1; 2; 0; 0; 2; 0; 2].
Definition oneByOne : list nat := [0; 0; 0; 0; 1; 2; 2; 2; 2].

(** The state a schedule leads to from the start of the scenario. *)
Definition finalOf (sched : list nat) : state :=
  match run (rt := caselessRuntime) "example.com" sched
          (start scenarioSources "example.com") with
  | Next st => st
  | _ => initial []
  end.

(** A response whose second line is too long for the scanner. *)
Definition overlongBody : string :=
  "a.example.com,93.184.216.34" +:+
  String newline (string_of_list_ascii (replicate MaxScanTokenSize "x"%char)).

(** ** The other providers of [main.go] and the list [main] registers *)

(** [json.Unmarshal] of a whole body into the two wrapper types of main.go:
    the [subdomains] of the report of threatcrowd and the [dns_names] of each
    certificate of certspotter, or the error of the decoder. *)
Class JSON := {
  unmarshalSubdomains : string → list string + error;
  unmarshalDNSNames : string → list (list string) + error
}.

(** The loop over the certificates of [fetchCertSpotter] (main.go, 142-144). *)
Fixpoint certSpotterLoop (wrapper : list (list string)) (out : list string) : list string :=
  match wrapper with
  | [] => out
  | w :: wrapper' => certSpotterLoop wrapper' (out ++ w)
  end.

Section OtherProviders.
Context {net : Network} {js : JSON}.

(** [fetchThreatCrowd] (main.go, 78-99). *)
Definition fetchThreatCrowd (domain : string) : list string * option error :=
  let out := [] in
  let '(raw, err) :=
    httpGet ("https://www.threatcrowd.org/searchApi/v2/domain/report/?domain=" +:+ domain) in
  match err with
  | Some e => (out, Some e)
  | None =>
      match unmarshalSubdomains raw with
      | inr e => (out, Some e)
      | inl subdomains => (out ++ subdomains, None)
      end
  end.

(** [fetchCertSpotter] (main.go, 124-147). *)
Definition fetchCertSpotter (domain : string) : list string * option error :=
  let out := [] in
  let '(raw, err) := httpGet ("https://certspotter.com/api/v0/certs?domain=" +:+ domain) in
  match err with
  | Some e => (out, Some e)
  | None =>
      match unmarshalDNSNames raw with
      | inr e => (out, Some e)
      | inl wrapper => (certSpotterLoop wrapper out, None)
      end
  end.

(** [sources] of [main] (main.go, 25-31).  [fetchFacebook] is declared in
    another file of the package and is taken as it comes. *)
Definition mainSources (fetchFacebook : fetchFn) : list fetchFn :=
  [fetchCertSpotter; fetchHackerTarget; fetchThreatCrowd; fetchCrtSh; fetchFacebook].

End OtherProviders.

(** *** The vocabulary of the statements on order *)

(** A list without its repetitions: of every element the first occurrence
    stays, in place. *)
Fixpoint firstOccurrences (l : list string) : list string :=
  match l with
  | [] => []
  | x :: l' => x :: filter (λ y, y ≠ x) (firstOccurrences l')
  end.

(** What the goroutine of provider [fn] has sent, against the values
    [received] from the channel: a goroutine in its loop has sent, in order,
    the names before those it has left, and a goroutine that has returned
    has sent all of them. *)
Definition tracks (domain : string) (received : list string)
    (fn : fetchFn) (w : worker) : Prop :=
  match w with
  | Ready fn' => fn' = fn
  | Sending rest => ∃ sent, fn domain = (sent ++ rest, None) ∧ sent `sublist_of` received
  | Finished => ∀ names, fn domain = (names, None) → names `sublist_of` received
  end.

Section Order.
Context {rt : GoRuntime}.

(** The lines printed are the first occurrences of the normal forms
    received. *)
Definition inArrivalOrder (st : state) : Prop :=
  stdout st = firstOccurrences (normalize <$> merged st).

(** The state a schedule leads to from the start of [main]. *)
Definition reached (sources : list fetchFn) (domain : string) (sched : list nat) : state :=
  match run domain sched (start sources domain) with
  | Next st => st
  | _ => initial []
  end.

End Order.

(** *** The body of the sink's loop, statement by statement *)

Section SinkStatements.
Context {rt : GoRuntime}.

(** The body of [for n := range out] up to and including [fmt.Println(n)]
    (main.go, 67-71): the state at the point between printing and
    recording, with the name that is printed and not yet recorded; no name
    when [continue] was taken.  [None] is a panic of [cleanDomain]. *)
Definition sinkPrintln (st : state) (n : string) : option (state * option string) :=
  n' ← cleanDomain n;
  match printed st !! n' with
  | Some _ =>
      Some ({| workers := workers st; merged := merged st ++ [n];
               printed := printed st; stdout := stdout st; stderr := stderr st |},
            None)
  | None =>
      Some ({| workers := workers st; merged := merged st ++ [n];
               printed := printed st; stdout := stdout st ++ [n'];
               stderr := stderr st |},
            Some n')
  end.

(** [printed[n] = true] (main.go, 72). *)
Definition sinkRecord (st : state) (n' : string) : state :=
  {| workers := workers st; merged := merged st;
     printed := <[n' := true]> (printed st);
     stdout := stdout st; stderr := stderr st |}.

(** The end of the iteration begun by [sinkPrintln]. *)
Definition sinkFinish (mid : state * option string) : state :=
  match mid.2 with
  | Some n' => sinkRecord mid.1 n'
  | None => mid.1
  end.

End SinkStatements.

(** *** The lines the scanner reaches *)




(** *** More concrete runs *)

(** The hackertarget provider on a response whose second line is too long,
    beside a provider that succeeds. *)
Definition lossySources : list fetchFn :=
  [ fetchHackerTarget (net := answering overlongBody []);
    (λ _, (["b.example.com"%string], None)) ].

(** The error line of the hackertarget provider of [lossySources]. *)
Definition tooLongLine : string :=
  "err: bufio.Scanner: token too long" +:+ String "010"%char EmptyString.


(** A network on which every request fails. *)
Definition unreachable : Network :=
  {| http_Get := λ url, inr ("Get " +:+ url +:+ ": dial tcp: no such host");
     jsonStream := λ _, [] |}.

(** A line of [MaxScanTokenSize] bytes, the second line of [overlongBody]. *)
Definition overlongLine : string :=
  string_of_list_ascii (replicate MaxScanTokenSize "x"%char).


(** One provider that repeats a name in three spellings. *)
Definition repeating : fetchFn :=
  λ _, (["www.Example.com"; "*.example.com"; "WWW.example.com"; "example.com"]%string, None).

(** A fifth provider for the list of [main]. *)
Definition facebookStub : fetchFn := λ _, (["fb.example.com"%string], None).

(** A decoder of JSON bodies that finds the same names in every body. *)
Definition decoding (subdomains : list string) (certs : list (list string)) : JSON :=
  {| unmarshalSubdomains := λ _, inl subdomains;
     unmarshalDNSNames := λ _, inl certs |}.

(** * Properties *)

(** ** Bytes and lower-casing *)

Lemma isUpperByte_lowerByte c : isUpperByte (lowerByte c) = false.
Proof. by destruct c as [[] [] [] [] [] [] [] []]. Qed.

Lemma isASCIIByte_lowerByte c : isASCIIByte (lowerByte c) = isASCIIByte c.
Proof. by destruct c as [[] [] [] [] [] [] [] []]. Qed.

Lemma lowerByte_not_upper c : isUpperByte c = false → lowerByte c = c.
Proof. unfold lowerByte. by intros ->. Qed.

Lemma lowerBytes_no_upper s : hasUpper s = false → lowerBytes s = s.
Proof.
  induction s as [|c s IH]; simpl; [done|].
  intros [Hc Hs]%orb_false_iff. by rewrite lowerByte_not_upper, IH.
Qed.

Lemma hasUpper_lowerBytes s : hasUpper (lowerBytes s) = false.
Proof. induction s as [|c s IH]; simpl; [done|]. by rewrite isUpperByte_lowerByte, IH. Qed.

Lemma isASCII_lowerBytes s : isASCII (lowerBytes s) = isASCII s.
Proof. induction s as [|c s IH]; simpl; [done|]. by rewrite isASCIIByte_lowerByte, IH. Qed.

Lemma len_lowerBytes s : len (lowerBytes s) = len s.
Proof. unfold len. induction s as [|c s IH]; simpl; [done|]. by rewrite IH. Qed.

Lemma lowered_tail c s : lowered (String c s) = true → lowered s = true.
Proof.
  unfold lowered; simpl.
  intros [[_ Ha]%andb_true_iff Hu%negb_true_iff]%andb_true_iff.
  apply orb_false_iff in Hu as [_ Hu]. by rewrite Ha, Hu.
Qed.

Section NormalizerFacts.
Context {rt : GoRuntime}.

Lemma ToLower_ascii s : isASCII s = true → ToLower s = lowerBytes s.
Proof.
  unfold ToLower. intros ->. destruct (hasUpper s) eqn:Hu; [done|].
  by rewrite lowerBytes_no_upper.
Qed.

Lemma ToLower_lowered s : lowered s = true → ToLower s = s.
Proof.
  intros [Ha Hu%negb_true_iff]%andb_true_iff.
  by rewrite ToLower_ascii, lowerBytes_no_upper.
Qed.

Lemma lowered_ToLower s : isASCII s = true → lowered (ToLower s) = true.
Proof.
  intros Ha. rewrite ToLower_ascii by done. unfold lowered.
  by rewrite isASCII_lowerBytes, Ha, hasUpper_lowerBytes.
Qed.

Lemma len_ToLower_ascii s : isASCII s = true → len (ToLower s) = len s.
Proof. intros Ha. by rewrite ToLower_ascii, len_lowerBytes. Qed.

Lemma lowered_dropFirstIf p s : lowered s = true → lowered (dropFirstIf p s) = true.
Proof.
  destruct s as [|c s]; simpl; [done|].
  destruct (p c); [apply lowered_tail | done].
Qed.

(** The code computes what the four steps of the specification describe, and
    no index it reads is out of range. *)
Lemma cleanDomain_normalize d : cleanDomain d = Some (normalize d).
Proof.
  unfold cleanDomain, normalize.
  destruct (ToLower d) as [|c1 [|c2 s]]; simpl; [done..|].
  unfold stripMarker; simpl.
  destruct (isMarker c1); simpl; unfold stripDot; simpl.
  - by destruct (Ascii.eqb c2 ".").
  - by destruct (Ascii.eqb c1 ".").
Qed.

Lemma lowered_normalize x : isASCII x = true → lowered (normalize x) = true.
Proof.
  intros Ha. unfold normalize. pose proof (lowered_ToLower x Ha) as Hl.
  destruct (len (ToLower x) <? 2); [done|].
  by do 2 apply lowered_dropFirstIf.
Qed.

Lemma cleanDomain_fixed r : ToLower r = r → unmarked r = true → cleanDomain r = Some r.
Proof.
  intros Hl Hu. rewrite cleanDomain_normalize. f_equal.
  unfold normalize. rewrite Hl. unfold unmarked in Hu.
  destruct (len r <? 2) eqn:Hlen; [done|]. simpl in Hu.
  destruct r as [|c r]; [done|]. simpl in *.
  apply negb_true_iff, orb_false_iff in Hu as [-> Hd]. simpl. by rewrite Hd.
Qed.

Lemma cleanDomain_below_two d :
  len (ToLower d) < 2 → cleanDomain d = Some (ToLower d).
Proof.
  intros Hlen. unfold cleanDomain.
  by destruct (Nat.ltb_spec (len (ToLower d)) 2); [|lia].
Qed.

End NormalizerFacts.

(** On ASCII input the Unicode tables are never consulted: whatever they
    hold, [cleanDomain] gives the same result. *)
Lemma cleanDomain_ascii_runtime (rt1 rt2 : GoRuntime) x :
  isASCII x = true → cleanDomain (rt := rt1) x = cleanDomain (rt := rt2) x.
Proof. intros Ha. unfold cleanDomain, ToLower. by rewrite Ha. Qed.

(** ** The normaliser *)

Section NormalizerClaims.
Context {rt : GoRuntime}.

(** C3.  [cleanDomain] lower-cases the whole string, then strips at most one
    leading [*] or [%], then at most one leading dot: it computes the
    four-step normaliser of the specification, its result is the lower-cased
    input without at most two leading bytes, the four examples of the
    specification come out as stated, and a repeated marker or dot is
    stripped once only. *)
Theorem cleanDomain_strips_once :
  (∀ d, cleanDomain d = Some (normalize d)) ∧
  (∀ d, ∃ k, k ≤ 2 ∧ sliceFrom (ToLower d) k = Some (normalize d)) ∧
  cleanDomain "*.Example.COM" = Some "example.com"%string ∧
  cleanDomain "%www.Foo.org" = Some "www.foo.org"%string ∧
  cleanDomain ".bar.net" = Some "bar.net"%string ∧
  cleanDomain "*.%.test" = Some "%.test"%string ∧
  cleanDomain "**a" = Some "*a"%string ∧
  cleanDomain "..a" = Some ".a"%string.
Proof.
  split; [apply cleanDomain_normalize|].
  split; [|by vm_compute].
  intros d. unfold normalize.
  destruct (ToLower d) as [|c1 [|c2 s]]; simpl; [by exists 0; auto..|].
  destruct (isMarker c1); simpl.
  - destruct (Ascii.eqb c2 "."); [by exists 2; auto | by exists 1; auto].
  - destruct (Ascii.eqb c1 "."); [by exists 1; auto | by exists 0; auto].
Qed.

(** C4, as amended.  [cleanDomain] applied to its own result returns it
    again whenever that result is left alone by lower-casing (as it is for
    every ASCII input) and is shorter than two bytes or starts with none of
    [*], [%] and the dot. *)
Theorem cleanDomain_idempotent_unmarked x r :
  cleanDomain x = Some r →
  isASCII x = true ∨ ToLower r = r →
  unmarked r = true →
  cleanDomain r = Some r.
Proof.
  rewrite cleanDomain_normalize. intros [= <-] Hl Hu.
  apply cleanDomain_fixed; [|done].
  destruct Hl as [Ha|Hl]; [|done].
  by apply ToLower_lowered, lowered_normalize.
Qed.

(** The converse: a result that starts with a marker or a dot and has two
    bytes or more is shortened by the second application. *)
Lemma cleanDomain_marked_shrinks r r' :
  unmarked r = false → ToLower r = r → cleanDomain r = Some r' → len r' < len r.
Proof.
  intros Hu Hl. rewrite cleanDomain_normalize. intros [= <-].
  unfold normalize. rewrite Hl. unfold unmarked in Hu.
  apply orb_false_iff in Hu as [Hlen Hu]. rewrite Hlen. unfold len in *.
  destruct r as [|c1 [|c2 s]]; simpl in *; [done..|].
  apply negb_false_iff in Hu.
  destruct (isMarker c1); simpl in *.
  - destruct (Ascii.eqb c2 "."); simpl; lia.
  - rewrite Hu. simpl. lia.
Qed.

(** C5, as amended.  When the lower-cased input has fewer than two bytes,
    [cleanDomain] returns that lower-cased string and strips nothing. *)
Theorem cleanDomain_short d :
  len (ToLower d) < 2 → cleanDomain d = Some (ToLower d).
Proof. apply cleanDomain_below_two. Qed.

(** For ASCII input the bound is on the input itself. *)
Lemma cleanDomain_short_ascii d :
  isASCII d = true → len d < 2 → cleanDomain d = Some (lowerBytes d).
Proof.
  intros Ha Hlen. rewrite cleanDomain_below_two; rewrite ?len_ToLower_ascii; [|done..].
  by rewrite ToLower_ascii.
Qed.

(** C10.  [cleanDomain] returns on every input and none of its index
    expressions is out of range: either the lower-cased string has fewer
    than two bytes and is returned at once, or it has at least two when
    [d[0]] is first read, and what the marker step leaves has at least one
    when [d[0]] is read again. *)
Theorem cleanDomain_never_panics d :
  ∃ r, cleanDomain d = Some r ∧
    (len (ToLower d) < 2 ∨
     ∃ c1 d1 c2,
       2 ≤ len (ToLower d) ∧ index (ToLower d) 0 = Some c1 ∧
       stripMarker (ToLower d) = Some d1 ∧
       1 ≤ len d1 ∧ index d1 0 = Some c2 ∧
       stripDot d1 = Some r).
Proof.
  assert (Hdot : ∀ c s, ∃ r, stripDot (String c s) = Some r).
  { intros c s. unfold stripDot; simpl. destruct (Ascii.eqb c "."); eauto. }
  unfold cleanDomain, len.
  destruct (ToLower d) as [|c1 [|c2 s]]; simpl;
    [eexists; split; [done | left; lia]..|].
  unfold stripMarker; simpl. destruct (isMarker c1); simpl.
  - destruct (Hdot c2 s) as [r Hr]. exists r. split; [done|].
    right. exists c1, (String c2 s), c2. simpl. repeat split; (done || lia).
  - destruct (Hdot c1 (String c2 s)) as [r Hr]. exists r. split; [done|].
    right. exists c1, (String c1 (String c2 s)), c1.
    simpl. repeat split; (done || lia).
Qed.

End NormalizerClaims.

(** C4 fails as stated, on an example of the specification itself: the
    normal form of [*.%.test] is [%.test], whose normal form is [test]. *)
Lemma cleanDomain_not_idempotent :
  cleanDomain (rt := caselessRuntime) "*.%.test" = Some "%.test"%string ∧
  cleanDomain (rt := caselessRuntime) "%.test" = Some "test"%string ∧
  "test"%string ≠ "%.test"%string.
Proof. by vm_compute. Qed.

Lemma cleanDomain_idempotent_unmarked_witness :
  cleanDomain (rt := caselessRuntime) "example.com" = Some "example.com"%string.
Proof.
  apply (cleanDomain_idempotent_unmarked (rt := caselessRuntime) "*.Example.COM");
    [reflexivity | left; reflexivity | reflexivity].
Defined.

(** C5 fails as stated: a string of one byte is lower-cased. *)
Lemma cleanDomain_short_changed :
  len "A" < 2 ∧ cleanDomain (rt := caselessRuntime) "A" = Some "a"%string ∧
  "a"%string ≠ "A"%string.
Proof. by vm_compute. Qed.

Lemma cleanDomain_short_witness :
  cleanDomain (rt := caselessRuntime) "A" = Some "a"%string.
Proof. apply (cleanDomain_short (rt := caselessRuntime) "A"). vm_compute. lia. Defined.

(** ** The sink *)

Section SinkFacts.
Context {rt : GoRuntime}.

Lemma sinkInv_initial ws : sinkInv (initial ws).
Proof.
  split; [|split]; simpl.
  - by rewrite dom_empty_L.
  - constructor.
  - done.
Qed.

Lemma sinkBody_spec st n :
  sinkInv st →
  ∃ st', sinkBody st n = Some st' ∧ sinkInv st' ∧
    workers st' = workers st ∧ stderr st' = stderr st ∧
    merged st' = merged st ++ [n] ∧
    (stdout st' = stdout st ∨ stdout st' = stdout st ++ [normalize n]).
Proof.
  intros (Hdom & Hnd & Hin). unfold sinkBody.
  rewrite cleanDomain_normalize; simpl.
  destruct (printed st !! normalize n) as [b|] eqn:Hp.
  - eexists; split; [done|]. unfold sinkInv; simpl. repeat split; auto.
    + intros Hx. rewrite fmap_app, elem_of_app. left. by apply Hin.
    + rewrite fmap_app, elem_of_app. intros [Hx|Hx%list_elem_of_singleton].
      * by apply Hin.
      * subst. apply (elem_of_list_to_set (C := gset string)).
        rewrite <- Hdom. apply elem_of_dom. eauto.
  - assert (normalize n ∉ stdout st) as Hfresh.
    { intros Hx%(elem_of_list_to_set (C := gset string)).
      rewrite <- Hdom in Hx. by apply not_elem_of_dom in Hp. }
    eexists; split; [done|]. unfold sinkInv; simpl. repeat split; auto.
    + rewrite dom_insert_L, list_to_set_app_L, Hdom. simpl.
      rewrite (right_id_L ∅ (∪)). apply (comm_L (∪)).
    + apply NoDup_app. repeat split; [done| |apply NoDup_singleton].
      intros x Hx ->%list_elem_of_singleton. done.
    + rewrite fmap_app, !elem_of_app. intros [Hx|Hx]; [left; by apply Hin | by right].
    + rewrite fmap_app, !elem_of_app. intros [Hx|Hx]; [left; by apply Hin | by right].
Qed.

Lemma sinkLoop_app st ch1 ch2 :
  sinkLoop st (ch1 ++ ch2) = sinkLoop st ch1 ≫= λ st', sinkLoop st' ch2.
Proof.
  revert st. induction ch1 as [|n ch1 IH]; intros st; simpl; [done|].
  destruct (sinkBody st n) as [st'|]; simpl; [apply IH | done].
Qed.

Lemma sinkLoop_spec st ch :
  sinkInv st →
  ∃ st', sinkLoop st ch = Some st' ∧ sinkInv st' ∧
    workers st' = workers st ∧ stderr st' = stderr st ∧
    merged st' = merged st ++ ch ∧
    stdout st `prefix_of` stdout st'.
Proof.
  revert st. induction ch as [|n ch IH]; intros st Hinv; simpl.
  - exists st. by rewrite app_nil_r.
  - destruct (sinkBody_spec st n Hinv) as (st1 & -> & Hinv1 & Hw & He & Hm & Hout).
    simpl. destruct (IH st1 Hinv1) as (st' & -> & Hinv' & Hw' & He' & Hm' & Hout').
    exists st'. split; [done|]. split; [done|].
    split; [congruence|]. split; [congruence|]. split.
    + by rewrite Hm', Hm, <- app_assoc.
    + etrans; [|done]. destruct Hout as [->| ->]; [done|]. by apply prefix_app_r.
Qed.

Lemma sinkBody_statements st n :
  sinkBody st n = sinkFinish <$> sinkPrintln st n.
Proof.
  unfold sinkBody, sinkPrintln. destruct (cleanDomain n) as [n'|]; simpl; [|done].
  by destruct (printed st !! n').
Qed.

Lemma sinkPrintln_spec st n :
  sinkInv st →
  ∃ mid, sinkPrintln st n = Some mid ∧
    match mid.2 with
    | None => dom (printed mid.1) =@{gset string} list_to_set (stdout mid.1)
    | Some n' =>
        n' = normalize n ∧ (n' ∉ dom (printed mid.1)) ∧
        list_to_set (stdout mid.1) =@{gset string} ({[n']} ∪ dom (printed mid.1))
    end.
Proof.
  intros (Hdom & _ & _). unfold sinkPrintln.
  rewrite cleanDomain_normalize; simpl.
  destruct (printed st !! normalize n) as [b|] eqn:Hp; eexists; (split; [done|]); simpl.
  - done.
  - split; [done|]. split; [by apply not_elem_of_dom|].
    rewrite list_to_set_app_L, Hdom. simpl.
    rewrite (right_id_L ∅ (∪)). apply (comm_L (∪)).
Qed.

(** C1, as amended.  Whatever sequence of raw names the channel delivers,
    repeats and variants with the same normal form included, the sink
    returns and prints every distinct normal form exactly once.  Between
    two iterations of its loop the keys of [printed] are exactly the lines
    printed so far; inside an iteration, between [fmt.Println(n)] and
    [printed[n] = true], the line just printed is the one line that is not
    yet a key. *)
Theorem sink_prints_each_name_once (ws : list worker) (ch : list string) :
  ∃ final, sinkLoop (initial ws) ch = Some final ∧
    NoDup (stdout final) ∧
    (∀ n, n ∈ stdout final ↔ n ∈ normalize <$> ch) ∧
    (∀ n, n ∈ stdout final ↔ ∃ raw, raw ∈ ch ∧ cleanDomain raw = Some n) ∧
    ∀ k, ∃ st, sinkLoop (initial ws) (take k ch) = Some st ∧
      dom (printed st) =@{gset string} list_to_set (stdout st) ∧
      NoDup (stdout st) ∧
      stdout st `prefix_of` stdout final ∧
      ∀ n, ch !! k = Some n →
        ∃ mid, sinkPrintln st n = Some mid ∧
          sinkLoop (initial ws) (take (S k) ch) = Some (sinkFinish mid) ∧
          match mid.2 with
          | None => dom (printed mid.1) =@{gset string} list_to_set (stdout mid.1)
          | Some n' =>
              n' = normalize n ∧ (n' ∉ dom (printed mid.1)) ∧
              list_to_set (stdout mid.1) =@{gset string} ({[n']} ∪ dom (printed mid.1))
          end.
Proof.
  destruct (sinkLoop_spec (initial ws) ch (sinkInv_initial ws))
    as (final & Hrun & (Hdom & Hnd & Hin) & _ & _ & Hm & _).
  exists final. split; [done|]. split; [done|].
  assert (∀ n, n ∈ stdout final ↔ n ∈ normalize <$> ch) as Hout.
  { intros n. by rewrite Hin, Hm. }
  split; [done|]. split.
  - intros n. rewrite Hout, list_elem_of_fmap. split.
    + intros (raw & -> & Hraw). exists raw. by rewrite cleanDomain_normalize.
    + intros (raw & Hraw & Hc). exists raw. rewrite cleanDomain_normalize in Hc.
      split; congruence.
  - intros k.
    destruct (sinkLoop_spec (initial ws) (take k ch) (sinkInv_initial ws))
      as (st & Hk & Hinvk & _ & _ & _ & _).
    exists st. split; [done|]. split; [apply Hinvk|]. split; [apply Hinvk|]. split.
    + rewrite <- (take_drop k ch), sinkLoop_app, Hk in Hrun. simpl in Hrun.
      destruct (sinkLoop_spec st (drop k ch) Hinvk) as (st' & Hrun' & _ & _ & _ & _ & Hpre).
      congruence.
    + intros n Hn. destruct (sinkPrintln_spec st n Hinvk) as (mid & Hmid & Hspec).
      exists mid. split; [done|]. split; [|done].
      rewrite (take_S_r ch k n Hn), sinkLoop_app, Hk. simpl.
      by rewrite sinkBody_statements, Hmid.
Qed.

End SinkFacts.

(** ** The orchestrator *)

Lemma insert_middle {A} (l : list A) i x :
  l !! i = Some x → ∃ l1 l2, l = l1 ++ x :: l2 ∧ ∀ y, <[i := y]> l = l1 ++ y :: l2.
Proof.
  intros Hi. exists (take i l), (drop (S i) l). split.
  - by rewrite take_drop_middle.
  - intros y. apply insert_take_drop. by eapply lookup_lt_Some.
Qed.

Lemma allFinished_pending domain st :
  allFinished st = true →
  workers st ≫= pendingNames domain = [] ∧ workers st ≫= pendingErrors domain = [] ∧
  remaining domain st = 0.
Proof.
  unfold allFinished, remaining.
  induction (workers st) as [|w ws IH]; [done|].
  simpl forallb. intros [Hw Hws]%andb_true_iff. destruct w; try done.
  rewrite !bind_cons. simpl. by apply IH.
Qed.

Lemma pending_start domain (sources : list fetchFn) :
  (Ready <$> sources) ≫= pendingNames domain = sources ≫= (λ fn,
     match fn domain with (names, None) => names | _ => [] end) ∧
  (Ready <$> sources) ≫= pendingErrors domain = sources ≫= (λ fn,
     match fn domain with (_, Some e) => [e] | _ => [] end).
Proof.
  induction sources as [|fn sources [IH1 IH2]]; [done|].
  rewrite fmap_cons, !bind_cons, IH1, IH2. done.
Qed.

Section OrchestratorFacts.
Context {rt : GoRuntime}.

Lemma step_spec domain M E i st :
  runInv domain M E st →
  step domain i st ≠ Panicked ∧
  ∀ st', step domain i st = Next st' →
    runInv domain M E st' ∧
    S (remaining domain st') = remaining domain st ∧
    stdout st `prefix_of` stdout st'.
Proof.
  intros (Hsink & Hm & He). unfold step, remaining.
  destruct (workers st !! i) as [w|] eqn:Hi; [|done].
  destruct (insert_middle (workers st) i w Hi) as (l1 & l2 & Hws & Hins).
  rewrite Hws in Hm, He. rewrite !bind_app, !bind_cons in Hm, He.
  destruct w as [fn|[|n names]|]; simpl in Hm, He.
  - (* the call of the provider *)
    destruct (fn domain) as [names [e|]] eqn:Hfn; (split; [done|]); intros st' [= <-];
      unfold runInv, sinkInv, setWorker; simpl; rewrite Hins, Hws;
      rewrite !bind_app, !bind_cons, !sum_list_with_app; simpl;
      unfold workerSteps; rewrite Hfn; simpl.
    + split; [|split; [lia|done]]. split; [done|]. split; [done|].
      rewrite <- He, !fmap_app, <- !app_assoc. simpl.
      apply Permutation_app_head. by rewrite <- Permutation_middle.
    + split; [|split; [lia|done]]. done.
  - (* the end of the loop over the names *)
    split; [done|]. intros st' [= <-].
    unfold runInv, sinkInv, setWorker; simpl. rewrite Hins, Hws.
    rewrite !bind_app, !bind_cons, !sum_list_with_app. simpl.
    split; [|split; [lia|done]]. done.
  - (* a send, received by the sink *)
    destruct (sinkBody_spec st n Hsink) as (st1 & -> & Hsink1 & Hw1 & He1 & Hm1 & Hout).
    split; [done|]. intros st' [= <-].
    split; [|split].
    + split; [exact Hsink1|]. unfold setWorker; simpl.
      rewrite Hw1, Hins, Hm1, He1, !bind_app, !bind_cons. simpl.
      split; [|done].
      rewrite <- Hm, <- !app_assoc. apply Permutation_app_head. simpl.
      by rewrite <- Permutation_middle.
    + unfold setWorker; simpl.
      rewrite Hw1, Hins, Hws, !sum_list_with_app. simpl. lia.
    + simpl. destruct Hout as [->| ->]; [done | by apply prefix_app_r].
  - done.
Qed.


Lemma run_spec domain M E sched st :
  runInv domain M E st →
  run domain sched st ≠ Panicked ∧
  ∀ st', run domain sched st = Next st' →
    runInv domain M E st' ∧
    length sched + remaining domain st' = remaining domain st ∧
    stdout st `prefix_of` stdout st'.
Proof.
  revert st. induction sched as [|i sched IH]; intros st Hinv; simpl.
  - split; [done|]. by intros st' [= <-].
  - destruct (step_spec domain M E i st Hinv) as [Hnp Hstep].
    destruct (step domain i st) as [st1| |]; [|done..].
    destruct (Hstep st1 eq_refl) as (Hinv1 & Hrem & Hpre).
    destruct (IH st1 Hinv1) as [Hnp' Hrun]. split; [done|].
    intros st' Hst'. destruct (Hrun st' Hst') as (Hinv' & Hrem' & Hpre').
    split; [done|]. split; [lia|]. by etrans.
Qed.

(** No deadlock: while a goroutine has not returned, one of them can move. *)
Lemma step_progress domain M E st :
  runInv domain M E st → allFinished st = false →
  ∃ i st', step domain i st = Next st'.
Proof.
  intros Hinv Hfin. unfold allFinished in Hfin.
  assert (∃ i w, workers st !! i = Some w ∧ w ≠ Finished) as (i & w & Hi & Hw).
  { induction (workers st) as [|w ws IH]; simpl in *; [done|].
    destruct w as [fn|names|]; [by exists 0, (Ready fn) | by exists 0, (Sending names) |].
    destruct (IH Hfin) as (i & w' & ? & ?). by exists (S i), w'. }
  exists i. destruct (step_spec domain M E i st Hinv) as [Hnp _].
  destruct (step domain i st) as [st'| |] eqn:Hstep; [eauto|done|].
  unfold step in Hstep. rewrite Hi in Hstep.
  destruct w as [fn|[|]|]; try done.
  - by destruct (fn domain) as [? [|]].
  - by destruct (sinkBody st s).
Qed.

(** Every run can be brought to its end. *)
Lemma run_completes domain M E st :
  runInv domain M E st →
  ∃ sched final, run domain sched st = Next final ∧ allFinished final = true.
Proof.
  remember (remaining domain st) as k eqn:Hk. revert st Hk.
  induction k as [k IH] using lt_wf_ind. intros st Hk Hinv.
  destruct (allFinished st) eqn:Hfin.
  - by exists [], st.
  - destruct (step_progress domain M E st Hinv Hfin) as (i & st1 & Hstep).
    destruct (step_spec domain M E i st Hinv) as [_ Hspec].
    destruct (Hspec st1 Hstep) as (Hinv1 & Hrem & _).
    destruct (IH (remaining domain st1) ltac:(lia) st1 eq_refl Hinv1)
      as (sched & final & Hrun & Hdone).
    exists (i :: sched), final. simpl. by rewrite Hstep.
Qed.

Lemma runInv_start domain sources :
  domain ≠ EmptyString →
  runInv domain (succeeded domain sources) (failures domain sources) (start sources domain).
Proof.
  intros Hd. unfold start. rewrite bool_decide_eq_false_2 by done.
  destruct (pending_start domain sources) as [Hn He].
  split; [apply sinkInv_initial|]. simpl. by rewrite Hn, He.
Qed.


End OrchestratorFacts.

Section OrchestratorClaims.
Context {rt : GoRuntime}.

(** C2.  A run of [main] can always be brought to its end, and under any
    interleaving of the goroutines a complete run has received on the
    channel exactly the names returned by the providers whose fetch
    succeeded, each occurrence once (none dropped, none added), and the set
    of lines printed is the set of their normal forms. *)
Theorem merge_complete (sources : list fetchFn) (domain : string) :
  domain ≠ EmptyString →
  (∃ sched final, completes sources domain sched final) ∧
  ∀ sched final, completes sources domain sched final →
    merged final ≡ₚ succeeded domain sources ∧
    list_to_set (stdout final) =@{gset string}
      list_to_set (normalize <$> succeeded domain sources).
Proof.
  intros Hd. pose proof (runInv_start domain sources Hd) as Hstart. split.
  - destruct (run_completes domain _ _ _ Hstart) as (sched & final & Hrun & Hfin).
    by exists sched, final.
  - intros sched final [Hrun Hfin].
    destruct (run_spec domain _ _ sched _ Hstart) as [_ Hspec].
    destruct (Hspec final Hrun) as (((_ & _ & Hin) & Hm & _) & _ & _).
    destruct (allFinished_pending domain final Hfin) as (Hp & _ & _).
    rewrite Hp, app_nil_r in Hm. split; [done|].
    apply set_eq. intros n. rewrite !elem_of_list_to_set, Hin. by rewrite Hm.
Qed.

(** C6, as amended.  A goroutine whose fetch returns an error forwards none
    of the names returned with it and reports the error: at every step of a
    run every value received from the channel, and every line printed, comes
    from a provider whose fetch returned no error, and every line on
    standard error is [err: ] followed by the error of a failing provider and
    a newline; what has been printed stays printed; and once all goroutines
    have returned, the error of every failing provider is on standard error,
    whether or not names came with it. *)
Theorem failed_provider_forwards_nothing (sources : list fetchFn) (domain : string)
    (sched : list nat) (st : state) :
  domain ≠ EmptyString →
  run domain sched (start sources domain) = Next st →
  (∀ n, n ∈ merged st → n ∈ succeeded domain sources) ∧
  (∀ n, n ∈ stdout st → n ∈ normalize <$> succeeded domain sources) ∧
  (∀ line, line ∈ stderr st →
     ∃ e, e ∈ failures domain sources ∧
          line = "err: " +:+ e +:+ String "010"%char EmptyString) ∧
  (∀ sched' st', run domain sched' st = Next st' → stdout st `prefix_of` stdout st') ∧
  (allFinished st = true →
   ∀ fn names e, fn ∈ sources → fn domain = (names, Some e) →
     ("err: " +:+ e +:+ String "010"%char EmptyString) ∈ stderr st).
Proof.
  intros Hd Hrun.
  destruct (run_spec domain _ _ sched _ (runInv_start domain sources Hd)) as [_ Hspec].
  destruct (Hspec st Hrun) as (Hinv & _ & _).
  assert (∀ n, n ∈ merged st → n ∈ succeeded domain sources) as Hmerged.
  { intros n Hn. destruct Hinv as (_ & Hm & _). rewrite <- Hm, elem_of_app. by left. }
  split; [done|]. split; [|split; [|split]].
  - intros n Hn. destruct Hinv as ((_ & _ & Hin) & _ & _).
    apply Hin, list_elem_of_fmap in Hn as (raw & -> & Hraw).
    apply list_elem_of_fmap. eauto.
  - intros line Hline. destruct Hinv as (_ & _ & He).
    assert (line ∈ errLine <$> failures domain sources) as Hin.
    { rewrite <- He, elem_of_app. by left. }
    apply list_elem_of_fmap in Hin as (e & -> & Hin). by exists e.
  - intros sched' st' Hrun'.
    destruct (run_spec domain _ _ sched' _ Hinv) as [_ Hspec'].
    by destruct (Hspec' st' Hrun') as (_ & _ & ?).
  - intros Hfin fn names e Hfn Hres. destruct Hinv as (_ & _ & He).
    destruct (allFinished_pending domain st Hfin) as (_ & Hpe & _).
    rewrite Hpe in He. simpl in He. rewrite app_nil_r in He. rewrite He.
    apply (list_elem_of_fmap_2 errLine). unfold failures.
    apply list_elem_of_bind. exists fn. split; [|done]. rewrite Hres.
    apply list_elem_of_here.
Qed.


End OrchestratorClaims.

(** ** The decoders of the two providers *)

(* The size of the scanner's buffer is a number the proofs never unfold. *)
#[local] Opaque MaxScanTokenSize.

Lemma length_pushBytes l cur : length (pushBytes l cur) = len l + length cur.
Proof.
  unfold len. revert cur. induction l as [|c l IH]; intros cur; simpl; [done|].
  rewrite IH. simpl. lia.
Qed.

Lemma scanLines_line l rest cur :
  noNewline l = true →
  scanLines (l +:+ String newline rest) cur =
  if MaxScanTokenSize <=? length (pushBytes l cur) then ([], Some ErrTooLong)
  else let '(tokens, err) := scanLines rest [] in
       (lineToken (pushBytes l cur) :: tokens, err).
Proof.
  revert cur. induction l as [|c l IH]; intros cur Hl; simpl.
  - by rewrite ?Ascii.eqb_refl.
  - simpl in Hl. apply andb_true_iff in Hl as [Hc%negb_true_iff Hl].
    rewrite Hc. by apply IH.
Qed.

Lemma scanLines_last l cur :
  noNewline l = true →
  scanLines l cur =
  match pushBytes l cur with
  | [] => ([], None)
  | _ => if MaxScanTokenSize <=? length (pushBytes l cur) then ([], Some ErrTooLong)
         else ([lineToken (pushBytes l cur)], None)
  end.
Proof.
  revert cur. induction l as [|c l IH]; intros cur Hl; simpl.
  - by destruct cur.
  - simpl in Hl. apply andb_true_iff in Hl as [Hc%negb_true_iff Hl].
    rewrite Hc. by apply IH.
Qed.

Lemma scanLines_body lines last :
  Forall scannable lines → scannable last →
  scanLines (bodyOf lines last) [] = (lineText <$> linesOf lines last, None).
Proof.
  intros Hlines [Hnl Hlen]. unfold linesOf.
  induction Hlines as [|l lines [Hl Hshort] _ IH]; simpl.
  - rewrite scanLines_last by done.
    pose proof (length_pushBytes last []) as Hpush. simpl in Hpush.
    destruct last as [|c last]; [done|].
    destruct (pushBytes (String c last) []) eqn:Hp; [simpl in *; unfold len in *; simpl in *; lia|].
    rewrite <- Hp in *. unfold lineText.
    by destruct (Nat.leb_spec MaxScanTokenSize (length (pushBytes (String c last) []))); [lia|].
  - rewrite scanLines_line by done.
    pose proof (length_pushBytes l []) as Hpush. simpl in Hpush.
    destruct (Nat.leb_spec MaxScanTokenSize (length (pushBytes l []))); [lia|].
    by rewrite IH.
Qed.

Lemma fields_cut s :
  match cut "," s with
  | Some (a, b) => fields s = a :: fields b
  | None => fields s = [s]
  end.
Proof.
  induction s as [|c s IH]; simpl; [done|].
  destruct (Ascii.eqb c ","); [done|].
  destruct (cut "," s) as [[a b]|]; simpl; by rewrite IH.
Qed.

Lemma fields_nonempty s : ∃ f fs, fields s = f :: fs.
Proof.
  induction s as [|c s (f & fs & IH)]; simpl; [by eexists _, _|].
  destruct (Ascii.eqb c ","); [by eexists _, _|]. rewrite IH. by eexists _, _.
Qed.

Lemma SplitN_firstField text :
  match SplitN text "," 2 with
  | [p0; _] => Some p0
  | _ => None
  end = firstField text.
Proof.
  unfold firstField. simpl. pose proof (fields_cut text) as Hcut.
  destruct (cut "," text) as [[a b]|]; rewrite Hcut; [|done].
  by destruct (fields_nonempty b) as (f & fs & ->).
Qed.

Lemma hackerTargetLoop_spec tokens out :
  hackerTargetLoop tokens out = out ++ omap firstField tokens.
Proof.
  revert out. induction tokens as [|text tokens IH]; intros out.
  - by rewrite app_nil_r.
  - cbn [hackerTargetLoop omap list_omap]. rewrite <- SplitN_firstField.
    destruct (SplitN text "," 2) as [|p0 [|p1 [|]]]; rewrite IH; try done.
    by rewrite <- app_assoc.
Qed.

Lemma crtShLoop_spec names tail out :
  tail = [] ∨ (∃ e rest, tail = DecodeError e :: rest) →
  crtShLoop ((Decoded <$> names) ++ tail) out = out ++ names.
Proof.
  intros Htail. revert out. induction names as [|name names IH]; intros out; simpl.
  - rewrite app_nil_r. by destruct Htail as [->|(e & rest & ->)].
  - by rewrite IH, <- app_assoc.
Qed.



Section ProviderClaims.
Context {net : Network}.

(** C8.  When [http.Get] has answered, the decoder of crt.sh takes the name
    of every object decoded before the first failing [Decode], stops there
    without a word, and returns those names with no error, whether the
    failure is the end of the stream or a decoding error. *)
Theorem fetchCrtSh_keeps_decoded_prefix (domain : string) (resp : response)
    (names : list string) (tail : list decoded) :
  http_Get ("https://crt.sh/?q=%25." +:+ domain +:+ "&output=json") = inl resp →
  jsonStream (Body resp) = (Decoded <$> names) ++ tail →
  tail = [] ∨ (∃ e rest, tail = DecodeError e :: rest) →
  fetchCrtSh domain = (names, None).
Proof.
  intros Hget Hstream Htail. unfold fetchCrtSh. rewrite Hget, Hstream.
  by rewrite crtShLoop_spec.
Qed.


End ProviderClaims.

(** * The claims on concrete runs *)

Lemma merge_complete_scenario :
  merged (finalOf oneByOne)
    ≡ₚ succeeded "example.com" scenarioSources ∧
  list_to_set (stdout (finalOf oneByOne)) =@{gset string}
    list_to_set (normalize (rt := caselessRuntime) <$> succeeded "example.com" scenarioSources).
Proof.
  destruct (merge_complete (rt := caselessRuntime) scenarioSources "example.com")
    as [_ Hfinal]; [done|].
  apply (Hfinal oneByOne). split; vm_compute; reflexivity.
Defined.

(** The hackertarget provider returns a name together with [ErrTooLong]; in
    the complete run beside a succeeding provider that name is neither
    received nor printed, and the error is on standard error. *)
Lemma failed_provider_forwards_nothing_scenario :
  fetchHackerTarget (net := answering overlongBody []) "example.com"
    = (["a.example.com"%string], Some ErrTooLong) ∧
  allFinished (reached (rt := caselessRuntime) lossySources "example.com" [1; 0; 1; 1]) = true ∧
  ("a.example.com"%string
     ∉ merged (reached (rt := caselessRuntime) lossySources "example.com" [1; 0; 1; 1])) ∧
  ("a.example.com"%string
     ∉ stdout (reached (rt := caselessRuntime) lossySources "example.com" [1; 0; 1; 1])) ∧
  tooLongLine
    ∈ stderr (reached (rt := caselessRuntime) lossySources "example.com" [1; 0; 1; 1]).
Proof.
  assert (fetchHackerTarget (net := answering overlongBody []) "example.com"
            = (["a.example.com"%string], Some ErrTooLong)) as Hfetch
    by (vm_compute; reflexivity).
  assert (succeeded "example.com" lossySources = ["b.example.com"%string]) as Hs
    by (vm_compute; reflexivity).
  assert (allFinished (reached (rt := caselessRuntime) lossySources "example.com"
            [1; 0; 1; 1]) = true) as Hfin by (vm_compute; reflexivity).
  destruct (failed_provider_forwards_nothing (rt := caselessRuntime) lossySources
              "example.com" [1; 0; 1; 1]
              (reached (rt := caselessRuntime) lossySources "example.com" [1; 0; 1; 1]))
    as (Hm & Ho & _ & _ & Herr).
  - done.
  - vm_compute; reflexivity.
  - split; [done|]. split; [done|]. split; [|split].
    + intros Hin. apply Hm in Hin. rewrite Hs in Hin.
      by apply list_elem_of_singleton in Hin.
    + intros Hin. apply Ho in Hin. rewrite Hs in Hin.
      by apply list_elem_of_singleton in Hin.
    + apply (Herr Hfin (fetchHackerTarget (net := answering overlongBody []))
               ["a.example.com"%string] ErrTooLong); [|done].
      apply list_elem_of_here.
Defined.


(** C6 fails as stated.  A response whose second line is too long for the
    scanner makes [fetchHackerTarget] return the name of the first line
    together with an error; the goroutine reports the error and the name is
    never printed. *)
Lemma partial_names_dropped :
  fetchHackerTarget (net := answering overlongBody []) "example.com"
    = (["a.example.com"%string], Some ErrTooLong) ∧
  run (rt := caselessRuntime) "example.com" [0]
      (start [fetchHackerTarget (net := answering overlongBody [])] "example.com")
    = Next {| workers := [Finished]; merged := []; printed := ∅; stdout := [];
              stderr := [errLine ErrTooLong] |}.
Proof. split; vm_compute; reflexivity. Qed.

Lemma fetchCrtSh_keeps_decoded_prefix_witness :
  fetchCrtSh (net := answering EmptyString
                [Decoded "a.example.com"; Decoded "*.example.com";
                 DecodeError "invalid character '<' looking for beginning of value";
                 Decoded "late.example.com"]) "example.com"
    = (["a.example.com"; "*.example.com"]%string, None).
Proof.
  apply (fetchCrtSh_keeps_decoded_prefix (net := answering _ _) "example.com"
           {| Body := EmptyString; BodyErr := None |}
           ["a.example.com"; "*.example.com"]%string
           [DecodeError "invalid character '<' looking for beginning of value";
            Decoded "late.example.com"]).
  - reflexivity.
  - reflexivity.
  - right. by eexists _, _.
Defined.



(** C1 fails as stated: after [fmt.Println(n)] and before [printed[n] = true]
    the line printed for the first value received is not a key of
    [printed]. *)
Lemma printed_lags_behind_println :
  sinkPrintln (rt := caselessRuntime) (initial []) "a.example.com"
    = Some ({| workers := []; merged := ["a.example.com"%string]; printed := ∅;
               stdout := ["a.example.com"%string]; stderr := [] |},
            Some "a.example.com"%string) ∧
  dom (∅ : gmap string bool) ≠@{gset string} list_to_set ["a.example.com"%string].
Proof.
  split; [vm_compute; reflexivity|].
  intros Heq. assert ("a.example.com"%string ∈@{gset string} ∅) as Hin.
  { rewrite <- (dom_empty_L (D := gset string) (A := bool)), Heq.
    apply elem_of_list_to_set, list_elem_of_here. }
  by apply not_elem_of_empty in Hin.
Qed.

(** * Further properties of the code *)

(** ** The normaliser *)

Lemma isMarker_true c : isMarker c = true ↔ c = "*"%char ∨ c = "%"%char.
Proof. unfold isMarker. by rewrite orb_true_iff, !Ascii.eqb_eq. Qed.

Section NormalizerMore.
Context {rt : GoRuntime}.

(** X1.  On an ASCII name [cleanDomain] returns an ASCII name without
    upper-case letter, and the same one as on the lower-cased name: names
    that differ in case only have one normal form. *)
Theorem cleanDomain_ascii_lowercase x :
  isASCII x = true →
  ∃ r, cleanDomain x = Some r ∧ isASCII r = true ∧ hasUpper r = false ∧
       cleanDomain (lowerBytes x) = Some r.
Proof.
  intros Ha. exists (normalize x). split; [apply cleanDomain_normalize|].
  pose proof (lowered_normalize x Ha) as [Hr Hu%negb_true_iff]%andb_true_iff.
  split; [done|]. split; [done|].
  rewrite !cleanDomain_normalize. f_equal. unfold normalize.
  rewrite (ToLower_ascii x Ha), ToLower_ascii by by rewrite isASCII_lowerBytes.
  by rewrite (lowerBytes_no_upper (lowerBytes x)) by apply hasUpper_lowerBytes.
Qed.

(** X2.  The ASCII names that [cleanDomain] returns as they are: those
    without upper-case letter that have fewer than two bytes or start with
    none of [*], [%] and the dot. *)
Theorem cleanDomain_fixed_points r :
  isASCII r = true →
  cleanDomain r = Some r ↔ hasUpper r = false ∧ unmarked r = true.
Proof.
  intros Ha. split.
  - intros Hr. assert (hasUpper r = false) as Hu.
    { pose proof (lowered_normalize r Ha) as Hl.
      rewrite cleanDomain_normalize in Hr. injection Hr as Hr. rewrite Hr in Hl.
      by apply andb_true_iff in Hl as [_ ?%negb_true_iff]. }
    split; [done|]. destruct (unmarked r) eqn:Hm; [done|].
    assert (ToLower r = r) as Hl.
    { apply ToLower_lowered. unfold lowered. by rewrite Ha, Hu. }
    pose proof (cleanDomain_marked_shrinks r r Hm Hl Hr). lia.
  - intros [Hu Hm]. apply cleanDomain_fixed; [|done].
    apply ToLower_lowered. unfold lowered. by rewrite Ha, Hu.
Qed.

(** X3.  The normal form is the empty string, which the sink prints as an
    empty line, exactly when the lower-cased name is empty or is a marker
    followed by a dot and nothing else. *)
Theorem cleanDomain_empty_result d :
  cleanDomain d = Some EmptyString ↔
  ToLower d = EmptyString ∨ ToLower d = "*."%string ∨ ToLower d = "%."%string.
Proof.
  rewrite cleanDomain_normalize. unfold normalize.
  destruct (ToLower d) as [|c1 [|c2 s]]; simpl.
  - split; auto.
  - split; [done|]. by intros [|[|]].
  - destruct (isMarker c1) eqn:Hm; simpl.
    + apply isMarker_true in Hm.
      destruct (Ascii.eqb_spec c2 ".") as [->|Hdot].
      * split.
        -- intros [= ->]. destruct Hm as [->| ->]; auto.
        -- by intros [|[[= _ ->]|[= _ ->]]].
      * split; [done|]. intros [|[[= _ ? _]|[= _ ? _]]]; done.
    + assert (c1 ≠ "*"%char ∧ c1 ≠ "%"%char) as [H1 H2].
      { split; intros ->; by vm_compute in Hm. }
      destruct (Ascii.eqb c1 "."); (split; [done|]);
        intros [|[[= ? _ _]|[= ? _ _]]]; done.
Qed.

End NormalizerMore.

Lemma cleanDomain_ascii_lowercase_witness :
  ∃ r, cleanDomain (rt := caselessRuntime) "*.Example.COM" = Some r ∧
       isASCII r = true ∧ hasUpper r = false ∧
       cleanDomain (rt := caselessRuntime) (lowerBytes "*.Example.COM") = Some r.
Proof. apply (cleanDomain_ascii_lowercase (rt := caselessRuntime)). reflexivity. Defined.

Lemma cleanDomain_fixed_points_witness :
  cleanDomain (rt := caselessRuntime) "www.example.com" = Some "www.example.com"%string
  ↔ hasUpper "www.example.com" = false ∧ unmarked "www.example.com" = true.
Proof. apply (cleanDomain_fixed_points (rt := caselessRuntime)). reflexivity. Defined.

(** ** The order of the output *)

Lemma firstOccurrences_snoc l x :
  firstOccurrences (l ++ [x]) =
  firstOccurrences l ++ (if decide (x ∈ l) then [] else [x]).
Proof.
  induction l as [|a l IH].
  - simpl. by destruct (decide (x ∈ [])) as [?%elem_of_nil|].
  - cbn [app firstOccurrences]. rewrite IH, filter_app. f_equal. f_equal.
    destruct (decide (x ∈ l)) as [Hin|Hnin].
    + rewrite decide_True by by apply list_elem_of_further. done.
    + destruct (decide (x = a)) as [->|Hne].
      * rewrite decide_True by apply list_elem_of_here.
        by rewrite filter_cons_False by auto.
      * rewrite decide_False by (intros [?|?]%elem_of_cons; done).
        by rewrite filter_cons_True.
Qed.

Section OrderFacts.
Context {rt : GoRuntime}.

Lemma sinkBody_order st n st' :
  sinkInv st → inArrivalOrder st → sinkBody st n = Some st' →
  sinkInv st' ∧ inArrivalOrder st'.
Proof.
  intros Hinv Hord Hbody.
  destruct (sinkBody_spec st n Hinv) as (st1 & Hst1 & Hinv1 & _ & _ & Hm & Hout).
  assert (st1 = st') as -> by congruence. split; [done|].
  unfold inArrivalOrder in *. rewrite Hm, fmap_app. simpl.
  rewrite firstOccurrences_snoc, <- Hord.
  destruct Hinv as (_ & _ & Hin). destruct Hinv1 as (_ & Hnd1 & Hin1).
  destruct (decide (normalize n ∈ normalize <$> merged st)) as [Hseen|Hnew].
  - rewrite app_nil_r. destruct Hout as [-> | Hout]; [done|].
    rewrite Hout in Hnd1. apply NoDup_app in Hnd1 as (_ & Hfresh & _).
    apply Hin in Hseen. destruct (Hfresh _ Hseen). apply list_elem_of_here.
  - destruct Hout as [Hout | ->]; [|done]. exfalso. apply Hnew, Hin.
    rewrite <- Hout. apply Hin1. rewrite Hm, fmap_app, elem_of_app. right.
    apply list_elem_of_here.
Qed.

Lemma sinkLoop_order st ch st' :
  sinkInv st → inArrivalOrder st → sinkLoop st ch = Some st' →
  sinkInv st' ∧ inArrivalOrder st'.
Proof.
  revert st. induction ch as [|n ch IH]; intros st Hinv Hord; simpl.
  - by intros [= <-].
  - destruct (sinkBody st n) as [st1|] eqn:Hbody; [|done]. simpl.
    destruct (sinkBody_order st n st1 Hinv Hord Hbody). by apply IH.
Qed.

(** X4.  The sink prints the normal forms in the order in which they first
    arrive: its output is the sequence of normal forms received, without
    the repetitions. *)
Theorem sink_prints_in_arrival_order (ws : list worker) (ch : list string) :
  ∃ final, sinkLoop (initial ws) ch = Some final ∧
    stdout final = firstOccurrences (normalize <$> ch).
Proof.
  destruct (sinkLoop_spec (initial ws) ch (sinkInv_initial ws))
    as (final & Hrun & _ & _ & _ & Hm & _).
  exists final. split; [done|].
  destruct (sinkLoop_order (initial ws) ch final (sinkInv_initial ws)) as [_ Hord];
    [done..|].
  unfold inArrivalOrder in Hord. by rewrite Hord, Hm.
Qed.

(** What a step leaves of the sink: nothing changes, or the body of the
    sink's loop has run once. *)
Lemma step_sink domain i st st' :
  step domain i st = Next st' →
  (merged st' = merged st ∧ stdout st' = stdout st ∧ printed st' = printed st) ∨
  ∃ n st1, sinkBody st n = Some st1 ∧
    merged st' = merged st1 ∧ stdout st' = stdout st1 ∧ printed st' = printed st1.
Proof.
  unfold step. destruct (workers st !! i) as [[fn|[|n names]|]|]; try done.
  - destruct (fn domain) as [names [e|]]; intros [= <-]; by left.
  - intros [= <-]. by left.
  - destruct (sinkBody st n) as [st1|] eqn:Hbody; [|done].
    intros [= <-]. right. by exists n, st1.
Qed.

Lemma run_order domain M E sched st st' :
  runInv domain M E st → inArrivalOrder st →
  run domain sched st = Next st' → inArrivalOrder st'.
Proof.
  revert st. induction sched as [|i sched IH]; intros st Hinv Hord; simpl.
  - by intros [= <-].
  - destruct (step domain i st) as [st1| |] eqn:Hstep; [|done..].
    destruct (step_spec domain M E i st Hinv) as [_ Hspec].
    destruct (Hspec st1 Hstep) as (Hinv1 & _ & _).
    apply IH; [done|].
    destruct (step_sink domain i st st1 Hstep) as [(Hm & Ho & _)|(n & st2 & Hbody & Hm & Ho & _)].
    + unfold inArrivalOrder. by rewrite Hm, Ho.
    + destruct (sinkBody_order st n st2 (proj1 Hinv) Hord Hbody) as [_ Hord2].
      unfold inArrivalOrder in *. by rewrite Hm, Ho.
Qed.

(** The goroutines are those of the providers, and each has sent, in
    order, a part of what its provider returned. *)
Lemma tracks_more domain received n fn w :
  tracks domain received fn w → tracks domain (received ++ [n]) fn w.
Proof.
  destruct w as [fn'|rest|]; simpl; [done| |].
  - intros (sent & Hfn & Hsub). exists sent. split; [done|].
    by apply sublist_inserts_r.
  - intros Hall names Hfn. by apply sublist_inserts_r, Hall.
Qed.

Lemma step_tracks domain M E sources i st st' :
  runInv domain M E st →
  Forall2 (tracks domain (merged st)) sources (workers st) →
  step domain i st = Next st' →
  Forall2 (tracks domain (merged st')) sources (workers st').
Proof.
  intros Hinv Htr. unfold step.
  destruct (workers st !! i) as [w|] eqn:Hi; [|done].
  destruct (Forall2_lookup_r _ _ _ _ _ Htr Hi) as (fn & Hfn & Hw).
  assert (∀ w', tracks domain (merged st) fn w' →
    Forall2 (tracks domain (merged st)) sources (<[i := w']> (workers st))) as Hset.
  { intros w' Hw'. rewrite <- (list_insert_id sources i fn Hfn).
    by apply Forall2_insert. }
  destruct w as [fn'|[|n rest]|]; simpl in Hw.
  - subst fn'. destruct (fn domain) as [names [e|]] eqn:Hres; intros [= <-]; simpl.
    + apply Hset. simpl. intros names'. by rewrite Hres.
    + apply Hset. simpl. exists []. split; [done | apply sublist_nil_l].
  - intros [= <-]. simpl. apply Hset. simpl.
    destruct Hw as (sent & Hres & Hsub). intros names. rewrite Hres, app_nil_r.
    by intros [= <-].
  - destruct (sinkBody_spec st n (proj1 Hinv)) as (st1 & -> & _ & Hw1 & _ & Hm1 & _).
    intros [= <-]. simpl. rewrite Hw1, Hm1.
    rewrite <- (list_insert_id sources i fn Hfn). apply Forall2_insert.
    + eapply Forall2_impl; [done|]. intros ??. apply tracks_more.
    + simpl. destruct Hw as (sent & Hres & Hsub). exists (sent ++ [n]). split.
      * by rewrite <- app_assoc.
      * by apply sublist_app.
  - done.
Qed.

Lemma run_tracks domain M E sources sched st st' :
  runInv domain M E st →
  Forall2 (tracks domain (merged st)) sources (workers st) →
  run domain sched st = Next st' →
  Forall2 (tracks domain (merged st')) sources (workers st').
Proof.
  revert st. induction sched as [|i sched IH]; intros st Hinv Htr; simpl.
  - by intros [= <-].
  - destruct (step domain i st) as [st1| |] eqn:Hstep; [|done..].
    destruct (step_spec domain M E i st Hinv) as [_ Hspec].
    destruct (Hspec st1 Hstep) as (Hinv1 & _ & _).
    apply IH; [done|]. by apply (step_tracks domain M E sources i st).
Qed.

Lemma allFinished_lookup st i w :
  allFinished st = true → workers st !! i = Some w → w = Finished.
Proof.
  unfold allFinished. generalize (workers st). intros ws. revert i.
  induction ws as [|w' ws IH]; intros i; simpl; [done|].
  intros [Hw' Hws]%andb_true_iff. destruct i as [|i]; simpl.
  - intros [= <-]. by destruct w'.
  - by apply IH.
Qed.

Lemma tracks_start domain sources :
  Forall2 (tracks domain []) sources (Ready <$> sources).
Proof. induction sources as [|fn sources IH]; simpl; by constructor. Qed.

Lemma sublist_full {A} (l1 l2 : list A) :
  l1 `sublist_of` l2 → length l2 ≤ length l1 → l1 = l2.
Proof.
  induction 1 as [|x l1 l2 Hsub IH|x l1 l2 Hsub IH]; simpl; intros Hlen.
  - done.
  - f_equal. apply IH. lia.
  - apply sublist_length in Hsub. lia.
Qed.

(** X5.  The order of a provider's names is kept: in a complete run the
    names a succeeding provider returned are, in their order, a subsequence
    of the values received from the channel. *)
Theorem provider_order_kept (sources : list fetchFn) (domain : string)
    (sched : list nat) (final : state) (i : nat) (fn : fetchFn) (names : list string) :
  domain ≠ EmptyString →
  completes sources domain sched final →
  sources !! i = Some fn → fn domain = (names, None) →
  names `sublist_of` merged final.
Proof.
  intros Hd [Hrun Hfin] Hi Hres.
  pose proof (runInv_start domain sources Hd) as Hstart.
  assert (Forall2 (tracks domain (merged final)) sources (workers final)) as Htr.
  { eapply run_tracks; [exact Hstart| |exact Hrun].
    unfold start. rewrite bool_decide_eq_false_2 by done. apply tracks_start. }
  destruct (Forall2_lookup_l _ _ _ _ _ Htr Hi) as (w & Hw & Ht).
  rewrite (allFinished_lookup final i w Hfin Hw) in Ht. by apply Ht.
Qed.

(** X6.  With one provider registered, whose fetch succeeds, every complete
    run receives exactly the names it returned, in its order, prints their
    normal forms in that order without the repetitions, and writes nothing
    to standard error. *)
Theorem single_provider_order (fn : fetchFn) (domain : string) (names : list string)
    (sched : list nat) (final : state) :
  domain ≠ EmptyString →
  fn domain = (names, None) →
  completes [fn] domain sched final →
  merged final = names ∧
  stdout final = firstOccurrences (normalize <$> names) ∧
  stderr final = [].
Proof.
  intros Hd Hres [Hrun Hfin].
  pose proof (runInv_start domain [fn] Hd) as Hstart.
  destruct (run_spec domain _ _ sched _ Hstart) as [_ Hspec].
  destruct (Hspec final Hrun) as ((_ & Hm & He) & _ & _).
  destruct (allFinished_pending domain final Hfin) as (Hpn & Hpe & _).
  assert (succeeded domain [fn] = names) as Hs.
  { unfold succeeded. rewrite bind_cons, Hres. apply app_nil_r. }
  assert (failures domain [fn] = []) as Hf.
  { unfold failures. by rewrite bind_cons, Hres. }
  rewrite Hpn, app_nil_r, Hs in Hm. rewrite Hpe, Hf in He. simpl in He.
  rewrite app_nil_r in He.
  assert (Forall2 (tracks domain (merged final)) [fn] (workers final)) as Htr.
  { eapply run_tracks; [exact Hstart| |exact Hrun].
    unfold start. rewrite bool_decide_eq_false_2 by done. apply (tracks_start domain [fn]). }
  assert (merged final = names) as Hmerged.
  { symmetry. apply sublist_full; [|by rewrite Hm].
    apply Forall2_cons_inv_l in Htr as (w & ws & Ht & _ & Hws).
    unfold allFinished in Hfin. rewrite Hws in Hfin. simpl in Hfin.
    destruct w; try done. by apply Ht. }
  split; [done|]. split.
  - rewrite <- Hmerged. eapply (run_order domain); [exact Hstart| |exact Hrun].
    unfold start. by rewrite bool_decide_eq_false_2.
  - by apply Permutation_nil_r in He.
Qed.

(** X7.  Without a domain [main] prints its diagnostic and stops: no
    goroutine is started, no provider is called, and every step of every
    schedule is refused. *)
Theorem no_domain_no_run (sources : list fetchFn) (sched : list nat) :
  allFinished (start sources EmptyString) = true ∧
  run EmptyString sched (start sources EmptyString) =
  match sched with
  | [] => Next {| workers := []; merged := []; printed := ∅;
                  stdout := ["no domain specified"%string]; stderr := [] |}
  | _ :: _ => NotEnabled
  end.
Proof. by destruct sched. Qed.

End OrderFacts.

Lemma provider_order_kept_witness :
  ["c.example.com"; "d.example.com"]%string `sublist_of` merged (finalOf interleaved).
Proof.
  eapply (provider_order_kept (rt := caselessRuntime) scenarioSources "example.com"
            interleaved (finalOf interleaved) 2).
  - done.
  - split; vm_compute; reflexivity.
  - reflexivity.
  - reflexivity.
Defined.

Lemma single_provider_order_witness :
  merged (reached (rt := caselessRuntime) [repeating] "example.com" [0; 0; 0; 0; 0; 0])
    = ["www.Example.com"; "*.example.com"; "WWW.example.com"; "example.com"]%string ∧
  stdout (reached (rt := caselessRuntime) [repeating] "example.com" [0; 0; 0; 0; 0; 0])
    = firstOccurrences (normalize (rt := caselessRuntime) <$>
        ["www.Example.com"; "*.example.com"; "WWW.example.com"; "example.com"]%string) ∧
  stderr (reached (rt := caselessRuntime) [repeating] "example.com" [0; 0; 0; 0; 0; 0]) = [].
Proof.
  apply (single_provider_order (rt := caselessRuntime) repeating "example.com" _
           [0; 0; 0; 0; 0; 0]).
  - done.
  - reflexivity.
  - split; vm_compute; reflexivity.
Defined.

(** ** The providers *)

Lemma MaxScanTokenSize_pos : 0 < MaxScanTokenSize.
Proof. apply Nat.ltb_lt. vm_compute. reflexivity. Qed.

Lemma scanLines_lines lines last :
  Forall scannable lines →
  scanLines (bodyOf lines last) [] =
  (let '(tokens, err) := scanLines last [] in ((lineText <$> lines) ++ tokens, err)).
Proof.
  intros Hlines. induction Hlines as [|l lines [Hl Hshort] _ IH]; simpl.
  - by destruct (scanLines last []).
  - rewrite scanLines_line by done.
    pose proof (length_pushBytes l []) as Hpush. simpl in Hpush.
    destruct (Nat.leb_spec MaxScanTokenSize (length (pushBytes l []))); [lia|].
    rewrite IH. by destruct (scanLines last []).
Qed.

Lemma scanLines_overlong long last :
  noNewline long = true → MaxScanTokenSize ≤ len long →
  last = long ∨ (∃ r, last = long +:+ String newline r) →
  scanLines last [] = ([], Some ErrTooLong).
Proof.
  intros Hnl Hlong Hlast.
  pose proof (length_pushBytes long []) as Hpush. simpl in Hpush.
  pose proof MaxScanTokenSize_pos as Hpos. unfold len in *.
  destruct Hlast as [->|(r & ->)].
  - rewrite scanLines_last by done.
    destruct (pushBytes long []) as [|c cur] eqn:Hp.
    { simpl in Hpush. lia. }
    rewrite <- Hp in Hpush |- *.
    by destruct (Nat.leb_spec MaxScanTokenSize (length (pushBytes long []))); [|lia].
  - rewrite scanLines_line by done.
    by destruct (Nat.leb_spec MaxScanTokenSize (length (pushBytes long []))); [|lia].
Qed.

Lemma noNewline_of_list l :
  Forall (λ c, c ≠ newline) l → noNewline (string_of_list_ascii l) = true.
Proof.
  induction 1 as [|c l Hc _ IH]; simpl; [done|].
  rewrite IH, andb_true_r. by apply negb_true_iff, Ascii.eqb_neq.
Qed.

Lemma noNewline_lineToken cur :
  Forall (λ c, c ≠ newline) cur → noNewline (lineToken cur) = true.
Proof.
  intros Hcur. apply noNewline_of_list, Forall_rev. unfold dropCR.
  destruct Hcur as [|c cur Hc Hcur]; [done|].
  destruct (Ascii.eqb c carriageReturn); [done | by constructor].
Qed.

Lemma scanLines_tokens data cur :
  Forall (λ c, c ≠ newline) cur →
  Forall (λ t, noNewline t = true) (scanLines data cur).1.
Proof.
  revert cur. induction data as [|c data IH]; intros cur Hcur; simpl.
  - destruct cur as [|c cur]; [done|].
    destruct (MaxScanTokenSize <=? length (c :: cur)); simpl; [done|].
    constructor; [by apply noNewline_lineToken | done].
  - destruct (Ascii.eqb_spec c newline) as [->|Hc].
    + destruct (MaxScanTokenSize <=? length cur); simpl; [done|].
      specialize (IH [] (Forall_nil_2 _)).
      destruct (scanLines data []) as [tokens err]. simpl in *.
      constructor; [by apply noNewline_lineToken | done].
    + apply IH. by constructor.
Qed.

Lemma cut_first sep s a b :
  cut sep s = Some (a, b) →
  cut sep a = None ∧ (noNewline s = true → noNewline a = true).
Proof.
  revert a b. induction s as [|c s IH]; intros a b; simpl; [done|].
  destruct (Ascii.eqb c sep) eqn:Hc.
  - by intros [= <- <-].
  - destruct (cut sep s) as [[a' b']|]; simpl; [|done].
    intros [= <- <-]. destruct (IH a' b' eq_refl) as [Hcut Hnl]. simpl.
    rewrite Hc, Hcut. split; [done|].
    intros [-> Hs]%andb_true_iff. by rewrite Hnl.
Qed.

Lemma firstField_cut text f :
  firstField text = Some f → ∃ b, cut "," text = Some (f, b).
Proof.
  unfold firstField. pose proof (fields_cut text) as Hcut.
  destruct (cut "," text) as [[a b]|]; rewrite Hcut; [|done].
  destruct (fields_nonempty b) as (f' & fs & ->). intros [= <-]. by exists b.
Qed.

Lemma certSpotterLoop_spec wrapper out :
  certSpotterLoop wrapper out = out ++ concat wrapper.
Proof.
  revert out. induction wrapper as [|w wrapper IH]; intros out; simpl.
  - by rewrite app_nil_r.
  - by rewrite IH, <- app_assoc.
Qed.

Section ProviderMore.
Context {net : Network} {js : JSON}.

(** X8.  A line too long for the scanner ends the decoding of hackertarget:
    the names of the lines before it are returned together with
    [ErrTooLong], and nothing of what follows it. *)
Theorem fetchHackerTarget_stops_at_long_line (domain : string)
    (lines : list string) (long last : string) :
  httpGet ("https://api.hackertarget.com/hostsearch/?q=" +:+ domain)
    = (bodyOf lines last, None) →
  Forall scannable lines →
  noNewline long = true → MaxScanTokenSize ≤ len long →
  last = long ∨ (∃ r, last = long +:+ String newline r) →
  fetchHackerTarget domain = (omap firstField (lineText <$> lines), Some ErrTooLong).
Proof.
  intros Hget Hlines Hnl Hlong Hlast. unfold fetchHackerTarget.
  rewrite Hget, scanLines_lines by done.
  rewrite (scanLines_overlong long last) by done.
  by rewrite app_nil_r, hackerTargetLoop_spec.
Qed.

(** X9.  Whatever the response, no name returned by [fetchHackerTarget]
    holds a comma or a newline. *)
Theorem fetchHackerTarget_names_clean (domain : string) :
  Forall (λ n, cut "," n = None ∧ noNewline n = true) (fetchHackerTarget domain).1.
Proof.
  unfold fetchHackerTarget.
  destruct (httpGet _) as [raw [e|]]; simpl; [done|].
  pose proof (scanLines_tokens raw [] (Forall_nil_2 _)) as Htok.
  destruct (scanLines raw []) as [tokens err]. simpl in *.
  rewrite hackerTargetLoop_spec. simpl. apply Forall_forall. intros n Hn.
  apply list_elem_of_omap in Hn as (text & Htext & Hf).
  apply firstField_cut in Hf as (b & Hcut).
  destruct (cut_first _ _ _ _ Hcut) as [Hcomma Hnl]. split; [done|].
  apply Hnl. by apply (proj1 (Forall_forall _ _) Htok).
Qed.

(** X10.  When the body decodes, [fetchCertSpotter] returns the names of
    all certificates, certificate after certificate, in their order. *)
Theorem fetchCertSpotter_flattens (domain raw : string) (certs : list (list string)) :
  httpGet ("https://certspotter.com/api/v0/certs?domain=" +:+ domain) = (raw, None) →
  unmarshalDNSNames raw = inl certs →
  fetchCertSpotter domain = (concat certs, None).
Proof.
  intros Hget Hjson. unfold fetchCertSpotter.
  by rewrite Hget, Hjson, certSpotterLoop_spec.
Qed.

(** X11.  [fetchThreatCrowd], [fetchCertSpotter] and [fetchCrtSh] never
    return a name together with an error: each returns no error or no
    name. *)
Theorem no_names_with_error (domain : string) :
  ((fetchThreatCrowd domain).2 = None ∨ (fetchThreatCrowd domain).1 = []) ∧
  ((fetchCertSpotter domain).2 = None ∨ (fetchCertSpotter domain).1 = []) ∧
  ((fetchCrtSh domain).2 = None ∨ (fetchCrtSh domain).1 = []).
Proof.
  unfold fetchThreatCrowd, fetchCertSpotter, fetchCrtSh. repeat split.
  - destruct (httpGet _) as [raw [e|]]; [by right|].
    destruct (unmarshalSubdomains raw); [by left | by right].
  - destruct (httpGet _) as [raw [e|]]; [by right|].
    destruct (unmarshalDNSNames raw); [by left | by right].
  - destruct (http_Get _); [by left | by right].
Qed.

End ProviderMore.

Section MainMore.
Context {rt : GoRuntime} {net : Network} {js : JSON}.

Lemma httpGet_down url :
  (∀ url, ∃ e, http_Get url = inr e) → ∃ e, httpGet url = (EmptyString, Some e).
Proof. intros Hdown. unfold httpGet. destruct (Hdown url) as [e ->]. by exists e. Qed.

Lemma mainSources_down (fetchFacebook : fetchFn) domain :
  (∀ url, ∃ e, http_Get url = inr e) →
  succeeded domain (mainSources fetchFacebook) = succeeded domain [fetchFacebook] ∧
  ∃ e1 e2 e3 e4, failures domain (mainSources fetchFacebook)
    = [e1; e2; e3; e4] ++ failures domain [fetchFacebook].
Proof.
  intros Hdown. unfold succeeded, failures, mainSources. rewrite !bind_cons.
  unfold fetchCertSpotter, fetchHackerTarget, fetchThreatCrowd, fetchCrtSh.
  destruct (httpGet_down ("https://certspotter.com/api/v0/certs?domain=" +:+ domain) Hdown)
    as [e1 ->].
  destruct (httpGet_down ("https://api.hackertarget.com/hostsearch/?q=" +:+ domain) Hdown)
    as [e2 ->].
  destruct (httpGet_down
    ("https://www.threatcrowd.org/searchApi/v2/domain/report/?domain=" +:+ domain) Hdown)
    as [e3 ->].
  destruct (Hdown ("https://crt.sh/?q=%25." +:+ domain +:+ "&output=json")) as [e4 ->].
  split; [done|]. by exists e1, e2, e3, e4.
Qed.

(** X12.  When every HTTP request fails, the four providers of this file
    contribute nothing: a complete run of [main] receives and prints only
    what [fetchFacebook] returned, and writes four error lines besides
    that of [fetchFacebook], if any. *)
Theorem network_down_only_facebook (fetchFacebook : fetchFn) (domain : string)
    (sched : list nat) (final : state) :
  (∀ url, ∃ e, http_Get url = inr e) →
  domain ≠ EmptyString →
  completes (mainSources fetchFacebook) domain sched final →
  merged final ≡ₚ succeeded domain [fetchFacebook] ∧
  stdout final = firstOccurrences (normalize <$> merged final) ∧
  length (stderr final) = 4 + length (failures domain [fetchFacebook]).
Proof.
  intros Hdown Hd [Hrun Hfin].
  pose proof (runInv_start domain (mainSources fetchFacebook) Hd) as Hstart.
  destruct (run_spec domain _ _ sched _ Hstart) as [_ Hspec].
  destruct (Hspec final Hrun) as ((_ & Hm & He) & _ & _).
  destruct (allFinished_pending domain final Hfin) as (Hpn & Hpe & _).
  destruct (mainSources_down fetchFacebook domain Hdown) as (Hs & e1 & e2 & e3 & e4 & Hf).
  rewrite Hpn, app_nil_r, Hs in Hm. rewrite Hpe, Hf in He. simpl in He.
  rewrite app_nil_r in He. split; [done|]. split.
  - eapply (run_order domain); [exact Hstart| |exact Hrun].
    unfold start. by rewrite bool_decide_eq_false_2.
  - apply Permutation_length in He. rewrite He. simpl. by rewrite length_fmap.
Qed.

End MainMore.

Lemma fetchHackerTarget_stops_at_long_line_witness :
  fetchHackerTarget (net := answering overlongBody []) "example.com"
    = (["a.example.com"%string], Some ErrTooLong).
Proof.
  apply (fetchHackerTarget_stops_at_long_line (net := answering overlongBody [])
           "example.com" ["a.example.com,93.184.216.34"%string] overlongLine overlongLine).
  - reflexivity.
  - repeat constructor. apply Nat.ltb_lt. vm_compute; reflexivity.
  - vm_compute; reflexivity.
  - apply Nat.leb_le. vm_compute; reflexivity.
  - by left.
Defined.

Lemma fetchCertSpotter_flattens_witness :
  fetchCertSpotter (net := answering "[]" [])
    (js := decoding [] [["example.com"; "www.example.com"]; []; ["*.example.com"]]%string)
    "example.com"
  = (["example.com"; "www.example.com"; "*.example.com"]%string, None).
Proof.
  apply (fetchCertSpotter_flattens (net := answering "[]" []) (js := decoding _ _)
           "example.com" "[]"
           [["example.com"; "www.example.com"]; []; ["*.example.com"]]%string);
    reflexivity.
Defined.

Lemma network_down_only_facebook_witness :
  merged (reached (rt := caselessRuntime)
            (mainSources (net := unreachable) (js := decoding [] []) facebookStub)
            "example.com" [0; 1; 2; 3; 4; 4; 4])
    ≡ₚ succeeded "example.com" [facebookStub] ∧
  stdout (reached (rt := caselessRuntime)
            (mainSources (net := unreachable) (js := decoding [] []) facebookStub)
            "example.com" [0; 1; 2; 3; 4; 4; 4])
    = firstOccurrences (normalize (rt := caselessRuntime) <$>
        merged (reached (rt := caselessRuntime)
            (mainSources (net := unreachable) (js := decoding [] []) facebookStub)
            "example.com" [0; 1; 2; 3; 4; 4; 4])) ∧
  length (stderr (reached (rt := caselessRuntime)
            (mainSources (net := unreachable) (js := decoding [] []) facebookStub)
            "example.com" [0; 1; 2; 3; 4; 4; 4]))
    = 4 + length (failures "example.com" [facebookStub]).
Proof.
  apply (network_down_only_facebook (rt := caselessRuntime) (net := unreachable)
           (js := decoding [] []) facebookStub "example.com" [0; 1; 2; 3; 4; 4; 4]).
  - intros url. by eexists.
  - done.
  - split; vm_compute; reflexivity.
Defined.

(** X13.  After every step of every run of [main], whatever the providers
    and the interleaving of their goroutines, the lines printed so far are
    the normal forms of the values received so far, each at the place of
    its first arrival.  A step is a whole action of one goroutine: the call
    of its provider, a send with the iteration of the sink's loop that
    receives it, or its return. *)
Theorem output_in_arrival_order {rt : GoRuntime} (sources : list fetchFn)
    (domain : string) (sched : list nat) (st : state) :
  domain ≠ EmptyString →
  run domain sched (start sources domain) = Next st →
  stdout st = firstOccurrences (normalize <$> merged st).
Proof.
  intros Hd Hrun.
  eapply (run_order domain); [exact (runInv_start domain sources Hd)| |exact Hrun].
  unfold start. by rewrite bool_decide_eq_false_2.
Qed.

Lemma output_in_arrival_order_witness :
  stdout (finalOf [2; 0; 2; 0; 2])
    = firstOccurrences (normalize (rt := caselessRuntime) <$> merged (finalOf [2; 0; 2; 0; 2])).
Proof.
  apply (output_in_arrival_order (rt := caselessRuntime) scenarioSources "example.com"
           [2; 0; 2; 0; 2]).
  - done.
  - vm_compute; reflexivity.
Defined.
